(** * Beyond-DSA: idempotency keys and the multi-tenant rate limiter

    A shallow embedding of [Idempotency Keys/Solution.py] and
    [Multi-Tenant/Solution.py].

    Conventions of the embedding.
    - Python [float] and [int] values that carry time or token counts are
      exact rationals [Q] and integers [Z]: rounding of IEEE doubles is not
      modelled.
    - Every call of [time.time()] is an explicit clock reading.
    - Python dictionaries are [gmap]s; the dictionaries whose identity
      matters (the metrics table and its snapshots) live in a heap of
      dictionary objects and are held by reference. *)

From Stdlib Require Import QArith Qround Qminmax Lqa.
From stdpp Require Import gmap strings list fin_maps.

Local Open Scope Q_scope.

(** ** Python exceptions and call outcomes *)

(** An exception object.  [exn_is_Exception] tells whether its class derives
    from [Exception]; [KeyboardInterrupt] or [SystemExit] derive from
    [BaseException] only and escape an [except Exception] clause. *)
Record PyExn := mkExn {
  exn_type : string;
  exn_message : string;
  exn_is_Exception : bool
}.

(** How a Python call ends. *)
Inductive Outcome (A : Type) : Type :=
| Return (a : A)
| Raise (e : PyExn).
Arguments Return {A} a.
Arguments Raise {A} e.

(** ** Result store *)

(** [Tuple[float, Any, bool]]: timestamp, result, success flag. *)
Definition CacheEntry (Val : Type) : Type := (Q * Val * bool)%type.
Arguments CacheEntry : simpl never.

Definition entry_timestamp {Val} (e : CacheEntry Val) : Q := e.1.1.
Definition entry_result {Val} (e : CacheEntry Val) : Val := e.1.2.
Definition entry_success {Val} (e : CacheEntry Val) : bool := e.2.

(** [class IdempotentStorage(ABC)].  A backend has a state [S]; every
    method returns the new state and either a value or the exception it
    raised.  [set_success] receives the reading of the clock it would take
    itself. *)
Class IdempotentStorage (Val S : Type) := {
  get : S → string → S * Outcome (option (CacheEntry Val));
  set_success : S → Q → string → Val → Z → S * Outcome unit;
  cleanup_expired : S → Q → Z → S * Outcome unit
}.

Section InMemory.
Context {Val : Type}.

(** [InMemoryIdempotentStorage.get] *)
Definition mem_get (results : gmap string (CacheEntry Val)) (key : string)
  : option (CacheEntry Val) :=
  results !! key.

(** [InMemoryIdempotentStorage.set_success]; [now] is the reading of
    [time.time()] on line 36.  [ttl_seconds] is not used. *)
Definition mem_set_success (results : gmap string (CacheEntry Val)) (now : Q)
    (key : string) (result : Val) (ttl_seconds : Z)
  : gmap string (CacheEntry Val) :=
  <[key := (now, result, true)]> results.

(** [current_time - ts > ttl_seconds], the filter of line 42. *)
Definition is_expired (current_time : Q) (ttl_seconds : Z)
    (e : CacheEntry Val) : bool :=
  negb (Qle_bool (current_time - entry_timestamp e) (inject_Z ttl_seconds)).

(** The list comprehension of lines 40-43. *)
Definition expired_keys (current_time : Q) (ttl_seconds : Z)
    (results : gmap string (CacheEntry Val)) : list string :=
  (filter (λ kv, is_expired current_time ttl_seconds kv.2 = true)
          (map_to_list results)).*1.

(** [InMemoryIdempotentStorage.cleanup_expired]: one [del] per expired key
    (lines 44-45). *)
Definition mem_cleanup_expired (results : gmap string (CacheEntry Val))
    (current_time : Q) (ttl_seconds : Z) : gmap string (CacheEntry Val) :=
  foldl (λ m k, delete k m) results
        (expired_keys current_time ttl_seconds results).

(** The default backend: none of its methods raises. *)
#[export] Instance InMemoryIdempotentStorage
  : IdempotentStorage Val (gmap string (CacheEntry Val)) := {
  get results key := (results, Return (mem_get results key));
  set_success results now key result ttl :=
    (mem_set_success results now key result ttl, Return tt);
  cleanup_expired results now ttl :=
    (mem_cleanup_expired results now ttl, Return tt)
}.

End InMemory.

(** ** The processor *)

(** A counter table: the contents of a [defaultdict(int)] or of a [dict]. *)
Abbreviation Counters := (gmap string Z).

(** State of an [IdempotentProcessor] with a backend of state [S], together
    with the part of the interpreter state its methods touch.
    - A [threading.Lock] of [_key_locks] is its state: [true] when locked.
      The registry never replaces or deletes a lock, so the local variable
      [key_lock] of [process] always denotes [_key_locks[key]].
    - [_metrics] is a reference into [py_dicts], the heap of dictionary
      objects.
    - [_shutdown_event] is the flag of the [threading.Event];
      [_cleanup_thread] tells whether the janitor thread is alive.
    - [py_log] collects the records sent to [logger] (level, text). *)
Record IdempotentProcessor (S : Type) := mkProcessor {
  ttl_seconds : Z;
  storage : S;
  cleanup_interval : Q;
  _key_locks : gmap string bool;
  _in_flight : gmap string bool;
  _metrics : nat;
  _shutdown_event : bool;
  _cleanup_thread : bool;
  py_dicts : gmap nat Counters;
  py_log : list (string * string)
}.
Arguments mkProcessor {S}.
Arguments ttl_seconds {S}.
Arguments storage {S}.
Arguments cleanup_interval {S}.
Arguments _key_locks {S}.
Arguments _in_flight {S}.
Arguments _metrics {S}.
Arguments _shutdown_event {S}.
Arguments _cleanup_thread {S}.
Arguments py_dicts {S}.
Arguments py_log {S}.

Section Processor.
Context {Val World S : Type} `{!IdempotentStorage Val S}.

Local Abbreviation Processor := (IdempotentProcessor S).

Definition set_storage (s : S) (p : Processor) : Processor :=
  mkProcessor (ttl_seconds p) s (cleanup_interval p) (_key_locks p)
    (_in_flight p) (_metrics p) (_shutdown_event p) (_cleanup_thread p)
    (py_dicts p) (py_log p).

Definition set_key_locks (l : gmap string bool) (p : Processor) : Processor :=
  mkProcessor (ttl_seconds p) (storage p) (cleanup_interval p) l
    (_in_flight p) (_metrics p) (_shutdown_event p) (_cleanup_thread p)
    (py_dicts p) (py_log p).

Definition set_in_flight (f : gmap string bool) (p : Processor) : Processor :=
  mkProcessor (ttl_seconds p) (storage p) (cleanup_interval p) (_key_locks p)
    f (_metrics p) (_shutdown_event p) (_cleanup_thread p)
    (py_dicts p) (py_log p).

Definition set_shutdown_event (b : bool) (p : Processor) : Processor :=
  mkProcessor (ttl_seconds p) (storage p) (cleanup_interval p) (_key_locks p)
    (_in_flight p) (_metrics p) b (_cleanup_thread p)
    (py_dicts p) (py_log p).

Definition set_cleanup_thread (b : bool) (p : Processor) : Processor :=
  mkProcessor (ttl_seconds p) (storage p) (cleanup_interval p) (_key_locks p)
    (_in_flight p) (_metrics p) (_shutdown_event p) b
    (py_dicts p) (py_log p).

Definition set_dicts (d : gmap nat Counters) (p : Processor) : Processor :=
  mkProcessor (ttl_seconds p) (storage p) (cleanup_interval p) (_key_locks p)
    (_in_flight p) (_metrics p) (_shutdown_event p) (_cleanup_thread p)
    d (py_log p).

Definition log_record (level text : string) (p : Processor) : Processor :=
  mkProcessor (ttl_seconds p) (storage p) (cleanup_interval p) (_key_locks p)
    (_in_flight p) (_metrics p) (_shutdown_event p) (_cleanup_thread p)
    (py_dicts p) (py_log p ++ [(level, text)]).

(** [IdempotentProcessor.__init__] run in an interpreter whose dictionary
    heap is [dicts]: the [defaultdict(int)] is a new object, the event is
    clear and the janitor thread is started. *)
Definition __init__ (ttl : Z) (backend : S) (cleanup_interval_seconds : Q)
    (dicts : gmap nat Counters) : Processor :=
  let m := fresh (dom dicts) in
  mkProcessor ttl backend cleanup_interval_seconds ∅ ∅ m false true
    (<[m := ∅]> dicts) [].

(** [d[name] += 1] on a [defaultdict(int)]: a missing counter reads 0. *)
Definition increment (name : string) (d : Counters) : Counters :=
  <[name := (default 0 (d !! name) + 1)%Z]> d.

(** [_record_metric]: the table behind [_metrics] is updated in place. *)
Definition _record_metric (name : string) (p : Processor) : Processor :=
  set_dicts (alter (increment name) (_metrics p) (py_dicts p)) p.

(** [get_metrics]: [dict(self._metrics)] is a new dictionary object with the
    same items; the method returns the reference to it. *)
Definition get_metrics (p : Processor) : nat * Processor :=
  let snapshot := fresh (dom (py_dicts p)) in
  (snapshot,
   set_dicts (<[snapshot := default ∅ (py_dicts p !! _metrics p)]> (py_dicts p)) p).

(** The value of one counter of the live table (absent counters are 0). *)
Definition metric (name : string) (p : Processor) : Z :=
  default 0%Z (default ∅ (py_dicts p !! _metrics p) !! name).

(** The condition of lines 84 and 108:
    [is_success and (current_time - timestamp <= self.ttl_seconds)]. *)
Definition entry_fresh (ttl : Z) (current_time : Q) (e : CacheEntry Val) : bool :=
  let '(timestamp, _, is_success) := e in
  is_success && Qle_bool (current_time - timestamp) (inject_Z ttl).

(** The test of lines 82-84 and 106-108 on what [get] returned: the entry
    whose result is returned from the cache, if any. *)
Definition fresh_entry (ttl : Z) (current_time : Q)
    (cached : option (CacheEntry Val)) : option (CacheEntry Val) :=
  match cached with
  | Some e => if entry_fresh ttl current_time e then Some e else None
  | None => None
  end.

(** Lines 88-98, run under [_coord_lock]: look up or create the lock of the
    key, then test and set the in-flight flag.  The local [is_first] is
    never read and is left out. *)
Definition coordinate (key : string) (p : Processor) : Processor :=
  let p1 :=
    match _key_locks p !! key with
    | None => set_key_locks (<[key := false]> (_key_locks p)) p
    | Some _ => p
    end in
  match _in_flight p1 !! key with
  | Some _ => _record_metric "concurrent_wait" p1
  | None => set_in_flight (<[key := true]> (_in_flight p1)) p1
  end.

(** Is the lock of [key] held? *)
Definition key_locked (key : string) (p : Processor) : bool :=
  default false (_key_locks p !! key).

(** [key_lock.acquire()] once the lock is free (line 102). *)
Definition acquire (key : string) (p : Processor) : Processor :=
  set_key_locks (<[key := true]> (_key_locks p)) p.

(** [key_lock.release()] (line 120). *)
Definition release (key : string) (p : Processor) : Processor :=
  set_key_locks (<[key := false]> (_key_locks p)) p.

(** [self._in_flight.pop(idempotency_key, None)] (lines 121-122). *)
Definition pop_in_flight (key : string) (p : Processor) : Processor :=
  set_in_flight (delete key (_in_flight p)) p.

(** The wrapped callable with its arguments: it acts on the world outside
    the processor and returns or raises. *)
Definition Action : Type := World → World * Outcome Val.

(** Lines 105-114, run with the lock of the key held.  [now_write] is the
    clock reading of [set_success]. *)
Definition guarded_body (p : Processor) (current_time now_write : Q)
    (key : string) (action_callable : Action) (w : World)
  : Outcome Val * Processor * World :=
  let '(s1, r1) := get (storage p) key in
  let p1 := set_storage s1 p in
  match r1 with
  | Raise e => (Raise e, p1, w)
  | Return cached =>
      match fresh_entry (ttl_seconds p1) current_time cached with
      | Some e => (Return (entry_result e), p1, w)
      | None =>
          let p2 := _record_metric "cache_miss" p1 in
          let '(w', r2) := action_callable w in
          match r2 with
          | Raise e => (Raise e, p2, w')
          | Return result =>
              let '(s3, r3) :=
                set_success (storage p2) now_write key result (ttl_seconds p2) in
              let p3 := set_storage s3 p2 in
              match r3 with
              | Raise e => (Raise e, p3, w')
              | Return _ => (Return result, p3, w')
              end
          end
      end
  end.

(** [process] run by one thread without interference.  [current_time] is
    the clock reading of line 79.  The result is [None] when the call never
    returns: the lock of the key is held and nobody releases it.  The
    clause [except Exception: raise] re-raises what it caught, and the
    [finally] block runs on every path once the lock is acquired. *)
Definition process (p : Processor) (current_time now_write : Q)
    (idempotency_key : string) (action_callable : Action) (w : World)
  : option (Outcome Val * Processor * World) :=
  let '(s0, r0) := get (storage p) idempotency_key in
  let p0 := set_storage s0 p in
  match r0 with
  | Raise e => Some (Raise e, p0, w)
  | Return cached =>
      match fresh_entry (ttl_seconds p0) current_time cached with
      | Some e =>
          Some (Return (entry_result e), _record_metric "cache_hit" p0, w)
      | None =>
          let p1 := coordinate idempotency_key p0 in
          if key_locked idempotency_key p1 then None
          else
            let '(o, p2, w') :=
              guarded_body (acquire idempotency_key p1) current_time now_write
                idempotency_key action_callable w in
            Some (o, pop_in_flight idempotency_key (release idempotency_key p2), w')
      end
  end.

(** One pass of the body of [_run_cleanup_loop] up to the wait (lines
    130-133): an [Exception] raised by the backend is logged and dropped,
    any other exception leaves the loop. *)
Definition cleanup_pass (now : Q) (p : Processor) : Outcome unit * Processor :=
  let '(s1, r) := cleanup_expired (storage p) now (ttl_seconds p) in
  let p1 := set_storage s1 p in
  match r with
  | Return _ => (Return tt, p1)
  | Raise e =>
      if exn_is_Exception e
      then (Return tt, log_record "WARNING" ("Cleanup error: " +:+ exn_message e) p1)
      else (Raise e, p1)
  end.

(** How far the janitor got on a finite schedule. *)
Inductive LoopStatus : Type :=
| LoopExited
| LoopWaiting
| LoopDied (e : PyExn).

(** [_run_cleanup_loop] on a schedule with one item per pass: the clock
    reading of the pass and whether [_shutdown_event] gets set by another
    thread before [wait] returns.  The loop has run through the whole
    schedule and is still going when the result is [LoopWaiting]. *)
Fixpoint _run_cleanup_loop (schedule : list (Q * bool)) (p : Processor)
  : LoopStatus * Processor :=
  if _shutdown_event p then (LoopExited, p)
  else
    match schedule with
    | [] => (LoopWaiting, p)
    | (now, stop) :: rest =>
        match cleanup_pass now p with
        | (Raise e, p1) => (LoopDied e, p1)
        | (Return _, p1) =>
            _run_cleanup_loop rest
              (if stop : bool then set_shutdown_event true p1 else p1)
        end
    end.

(** [shutdown]; [joined] tells whether the janitor thread ends within
    [timeout]. *)
Definition shutdown (joined : bool) (timeout : Q) (p : Processor) : Processor :=
  if _shutdown_event p then p
  else
    log_record "INFO" "IdempotentProcessor shutdown complete."
      (set_cleanup_thread (_cleanup_thread p && negb joined)
         (set_shutdown_event true p)).

(** [__del__] *)
Definition __del__ (joined : bool) (p : Processor) : Processor :=
  shutdown joined 5 p.

End Processor.

(** ** The rate limiter *)

(** Python's [min(a, b)]: [b] when [b < a], else [a]. *)
Definition py_min (a b : Q) : Q := if Qle_bool a b then a else b.

Module TokenBucket.

Record t := mk {
  capacity : Z;
  refill_rate : Q;
  current_tokens : Q;
  last_checked : Q
}.

(** [TokenBucket.__init__]; [now] is the reading of [time.time()]. *)
Definition __init__ (capacity : Z) (refill_rate : Q) (now : Q) : t :=
  mk capacity refill_rate (inject_Z capacity) now.

(** Lines 17-20 and 29-32: the lazy refill. *)
Definition refill (b : t) (now : Q) : t :=
  let elapsed := now - last_checked b in
  mk (capacity b) (refill_rate b)
     (py_min (inject_Z (capacity b))
             (current_tokens b + elapsed * refill_rate b))
     now.

(** [TokenBucket.allow_request] *)
Definition allow_request (b : t) (now : Q) (tokens : Z) : bool * t :=
  let b1 := refill b now in
  if (tokens <=? Qfloor (current_tokens b1))%Z
  then (true,
        mk (capacity b1) (refill_rate b1)
           (current_tokens b1 - inject_Z tokens) (last_checked b1))
  else (false, b1).

(** [TokenBucket.get_tokens] *)
Definition get_tokens (b : t) (now : Q) : Q * t :=
  let b1 := refill b now in (current_tokens b1, b1).

End TokenBucket.

Module MultiTenantRateLimiter.

(** The limiter is its dictionary [clients]. *)
Abbreviation t := (gmap string TokenBucket.t).

Definition __init__ : t := ∅.

(** Lines 48-54, run under [global_lock]; [now_create] is the clock reading
    of the bucket constructor. *)
Definition ensure_client (clients : t) (client_id : string)
    (capacity : option Z) (refill_rate : option Q) (now_create : Q) : t :=
  match clients !! client_id with
  | None =>
      let capacity := match capacity with None => 5%Z | Some c => c end in
      let refill_rate := match refill_rate with None => 1 | Some r => r end in
      <[client_id := TokenBucket.__init__ capacity refill_rate now_create]> clients
  | Some _ => clients
  end.

(** [MultiTenantRateLimiter.allow_request]; [None] stands for the
    [KeyError] of [self.clients[client_id]]. *)
Definition allow_request (clients : t) (client_id : string) (tokens : Z)
    (capacity : option Z) (refill_rate : option Q) (now_create now : Q)
  : option (bool * t) :=
  let clients1 := ensure_client clients client_id capacity refill_rate now_create in
  match clients1 !! client_id with
  | Some bucket =>
      let '(allowed, bucket1) := TokenBucket.allow_request bucket now tokens in
      Some (allowed, <[client_id := bucket1]> clients1)
  | None => None
  end.

(** [MultiTenantRateLimiter.get_client_tokens] *)
Definition get_client_tokens (clients : t) (client_id : string) (now : Q)
  : option Q * t :=
  match clients !! client_id with
  | Some bucket =>
      let '(n, bucket1) := TokenBucket.get_tokens bucket now in
      (Some n, <[client_id := bucket1]> clients)
  | None => (None, clients)
  end.

End MultiTenantRateLimiter.

(** ** Threads calling [process] concurrently

    Each thread runs one call of [process]; a step of a thread is one
    access to shared state, atomic because the code makes it under a lock
    ([_lock] of the store, [_coord_lock], [_metrics_lock]) or because it is
    an operation on the [threading.Lock] of the key.  The reading of the
    clock on line 79 belongs to the step of the read that follows it, and
    the recording of a metric to the step of the read that decides it: the
    counter table is touched by nothing else.  The callable takes two
    steps, its invocation and its end; its effect on the world happens at
    its end.  Steps of different threads, of the clock and of the janitor
    interleave freely. *)

Section Concurrent.
Context {Val World S : Type} `{!IdempotentStorage Val S}.

Local Abbreviation Processor := (IdempotentProcessor S).
Local Abbreviation Action := (@Action Val World).

(** Where a call of [process] stands; the local [current_time] is kept
    while it can still be read. *)
Inductive Pc : Type :=
| AtEntry                          (* before line 79 *)
| AtCoordinate (current_time : Q)  (* before line 88 *)
| AtAcquire (current_time : Q)     (* before line 102, may block *)
| AtDoubleCheck (current_time : Q) (* before line 105, lock held *)
| InAction                         (* line 112, inside the callable *)
| AtSetSuccess (result : Val)      (* before line 113 *)
| AtRelease (o : Outcome Val)      (* before line 120 *)
| AtPop (o : Outcome Val)          (* before line 121 *)
| Returned (o : Outcome Val).      (* the call is over *)

Record Thread := mkThread {
  th_key : string;
  th_action : Action;
  th_pc : Pc
}.

Record System := mkSystem {
  sys_processor : Processor;
  sys_world : World;
  sys_clock : Q;
  sys_threads : list Thread
}.

(** What an observer sees of a step. *)
Inductive Label : Type :=
| LCacheHit (tid : nat) (key : string) (double_check : bool)
    (current_time : Q) (e : CacheEntry Val)
| LInvoke (tid : nat) (key : string)
| LFinish (tid : nat) (key : string) (o : Outcome Val)
| LLocal (tid : nat)
| LTick (d : Q)
| LSweep
| LShutdown.

(** One step of thread [tid], which calls [process key action] and stands
    at [pc].  [None]: the thread cannot move (it waits for the lock, or its
    call is over). *)
Definition thread_step (tid : nat) (key : string) (action : Action) (pc : Pc)
    (p : Processor) (w : World) (clock : Q)
  : option (Label * Processor * World * Pc) :=
  match pc with
  | AtEntry =>
      (* lines 79-86 *)
      let current_time := clock in
      let '(s0, r0) := get (storage p) key in
      let p0 := set_storage s0 p in
      match r0 with
      | Raise e => Some (LLocal tid, p0, w, Returned (Raise e))
      | Return cached =>
          match fresh_entry (ttl_seconds p0) current_time cached with
          | Some e =>
              Some (LCacheHit tid key false current_time e,
                    _record_metric "cache_hit" p0, w,
                    Returned (Return (entry_result e)))
          | None => Some (LLocal tid, p0, w, AtCoordinate current_time)
          end
      end
  | AtCoordinate current_time =>
      (* lines 88-98 *)
      Some (LLocal tid, coordinate key p, w, AtAcquire current_time)
  | AtAcquire current_time =>
      (* line 102 *)
      if key_locked key p then None
      else Some (LLocal tid, acquire key p, w, AtDoubleCheck current_time)
  | AtDoubleCheck current_time =>
      (* lines 105-111 and the call of line 112 *)
      let '(s1, r1) := get (storage p) key in
      let p1 := set_storage s1 p in
      match r1 with
      | Raise e => Some (LLocal tid, p1, w, AtRelease (Raise e))
      | Return cached =>
          match fresh_entry (ttl_seconds p1) current_time cached with
          | Some e =>
              Some (LCacheHit tid key true current_time e, p1, w,
                    AtRelease (Return (entry_result e)))
          | None =>
              Some (LInvoke tid key, _record_metric "cache_miss" p1, w, InAction)
          end
      end
  | InAction =>
      (* the callable of line 112 returns or raises *)
      let '(w', r2) := action w in
      match r2 with
      | Raise e => Some (LFinish tid key (Raise e), p, w', AtRelease (Raise e))
      | Return result =>
          Some (LFinish tid key (Return result), p, w', AtSetSuccess result)
      end
  | AtSetSuccess result =>
      (* line 113 *)
      let '(s3, r3) := set_success (storage p) clock key result (ttl_seconds p) in
      let p3 := set_storage s3 p in
      match r3 with
      | Raise e => Some (LLocal tid, p3, w, AtRelease (Raise e))
      | Return _ => Some (LLocal tid, p3, w, AtRelease (Return result))
      end
  | AtRelease o =>
      (* line 120 *)
      Some (LLocal tid, release key p, w, AtPop o)
  | AtPop o =>
      (* lines 121-122 *)
      Some (LLocal tid, pop_in_flight key p, w, Returned o)
  | Returned _ => None
  end.

(** Who moves next. *)
Inductive Move : Type :=
| MThread (tid : nat)
| MTick (d : Q)
| MSweep
| MShutdown (joined : bool).

(** One step of the system.  Time never runs backwards; the janitor sweeps
    while it is alive and [_shutdown_event] is clear. *)
Definition sys_step (m : Move) (s : System) : option (Label * System) :=
  match m with
  | MThread tid =>
      match sys_threads s !! tid with
      | Some th =>
          match thread_step tid (th_key th) (th_action th) (th_pc th)
                  (sys_processor s) (sys_world s) (sys_clock s) with
          | Some (l, p, w, pc) =>
              Some (l, mkSystem p w (sys_clock s)
                         (<[tid := mkThread (th_key th) (th_action th) pc]>
                            (sys_threads s)))
          | None => None
          end
      | None => None
      end
  | MTick d =>
      if Qle_bool 0 d
      then Some (LTick d, mkSystem (sys_processor s) (sys_world s)
                            (sys_clock s + d) (sys_threads s))
      else None
  | MSweep =>
      if _shutdown_event (sys_processor s) || negb (_cleanup_thread (sys_processor s))
      then None
      else
        match cleanup_pass (sys_clock s) (sys_processor s) with
        | (Return _, p1) =>
            Some (LSweep, mkSystem p1 (sys_world s) (sys_clock s) (sys_threads s))
        | (Raise _, p1) =>
            Some (LSweep, mkSystem (set_cleanup_thread false p1) (sys_world s)
                            (sys_clock s) (sys_threads s))
        end
  | MShutdown joined =>
      Some (LShutdown, mkSystem (shutdown joined 5 (sys_processor s))
                         (sys_world s) (sys_clock s) (sys_threads s))
  end.

(** Executions, with the labels of their steps, the latest first. *)
Inductive exec : System → list Label → System → Prop :=
| exec_refl s : exec s [] s
| exec_step s tr s1 m l s2 :
    exec s tr s1 → sys_step m s1 = Some (l, s2) → exec s (l :: tr) s2.





End Concurrent.

(** ** Vocabulary of the properties *)

Section Vocabulary.
Context {Val World S : Type} `{!IdempotentStorage Val S}.

(** The counter table behind [_metrics]. *)
Definition table (p : IdempotentProcessor S) : Counters :=
  default ∅ (py_dicts p !! _metrics p).

(** [q] extends [p]: same table object, no counter is smaller, and every
    other dictionary object of [p] is untouched. *)
Definition extends (p q : IdempotentProcessor S) : Prop :=
  _metrics q = _metrics p
  ∧ (is_Some (py_dicts p !! _metrics p) → is_Some (py_dicts q !! _metrics p))
  ∧ (∀ name, (metric name p ≤ metric name q)%Z)
  ∧ (∀ l d, l ≠ _metrics p → py_dicts p !! l = Some d → py_dicts q !! l = Some d).

(** A client that calls [process key action] once per item of [calls], one
    call after the other; an item holds the two clock readings of its call.
    The outcomes come in the order of the calls. *)
Fixpoint process_many (p : IdempotentProcessor S) (calls : list (Q * Q))
    (key : string) (action : @Action Val World) (w : World)
  : option (list (Outcome Val) * IdempotentProcessor S * World) :=
  match calls with
  | [] => Some ([], p, w)
  | (current_time, now_write) :: rest =>
      match process p current_time now_write key action w with
      | Some (o, p1, w1) =>
          match process_many p1 rest key action w1 with
          | Some (os, p2, w2) => Some (o :: os, p2, w2)
          | None => None
          end
      | None => None
      end
  end.

(** The callable raises [e] whenever it is invoked. *)
Definition always_raises (action : @Action Val World) (e : PyExn) : Prop :=
  ∀ w, (action w).2 = Raise e.

(** The world after [n] invocations of the callable in a row. *)
Fixpoint invoke_n (n : nat) (action : @Action Val World) (w : World) : World :=
  match n with
  | O => w
  | Datatypes.S n' => invoke_n n' action (action w).1
  end.

End Vocabulary.

Section ConcurrentVocabulary.
Context {Val World S : Type} `{!IdempotentStorage Val S}.




End ConcurrentVocabulary.

Section SingleFlightVocabulary.
Context {Val World : Type}.

Local Abbreviation MemSystem :=
  (@System Val World (gmap string (CacheEntry Val))).








End SingleFlightVocabulary.

(** ** Scenarios

    The scenarios of [test.py], with the counter [call_count] of the tests
    as the world. *)

(** [charge_action] of [test_single_execution_under_concurrency]. *)
Definition charge_action : @Action string nat :=
  λ call_count, (Datatypes.S call_count, Return "ch_123"%string).

(** [flaky_action] of [test_failure_not_cached]. *)
Definition flaky_action : @Action string nat :=
  λ call_count,
    (Datatypes.S call_count, Raise (mkExn "ValueError" "Payment failed" true)).

(** A processor on the in-memory store, just built. *)
Definition new_processor (ttl : Z)
  : IdempotentProcessor (gmap string (CacheEntry string)) :=
  __init__ ttl ∅ 30 ∅.



(** A backend whose sweep fails every time. *)
Definition failing_sweep_backend : IdempotentStorage nat unit := {|
  get s key := (s, Return None);
  set_success s now key result ttl := (s, Return tt);
  cleanup_expired s now ttl := (s, Raise (mkExn "OSError" "disk full" true))
|}.

(** * Properties *)

(** ** The in-memory store *)

Section StoreFacts.
Context {Val : Type}.
Implicit Types results : gmap string (CacheEntry Val).

Lemma is_expired_false now ttl (e : CacheEntry Val) :
  is_expired now ttl e = false ↔ now - entry_timestamp e <= inject_Z ttl.
Proof.
  unfold is_expired. rewrite negb_false_iff. apply Qle_bool_iff.
Qed.


Lemma lookup_foldl_delete results (ks : list string) k :
  foldl (λ m k, delete k m) results ks !! k
  = if decide (k ∈ ks) then None else results !! k.
Proof.
  revert results. induction ks as [|k' ks IH]; intros results; simpl.
  - destruct (decide (k ∈ [])) as [Hin|_]; [by apply elem_of_nil in Hin | done].
  - rewrite IH. destruct (decide (k ∈ k' :: ks)) as [Hin|Hin].
    + apply elem_of_cons in Hin as [->|Hin].
      * rewrite lookup_delete_eq. by destruct (decide (k' ∈ ks)).
      * by rewrite decide_True.
    + apply not_elem_of_cons in Hin as [Hne Hin].
      rewrite decide_False by done. by rewrite lookup_delete_ne.
Qed.

Lemma elem_of_expired_keys results now ttl k :
  k ∈ expired_keys now ttl results
  ↔ ∃ e, results !! k = Some e ∧ is_expired now ttl e = true.
Proof.
  unfold expired_keys. rewrite list_elem_of_fmap. split.
  - intros [[k' e] [-> Hin]]. apply list_elem_of_filter in Hin as [He Hin].
    apply elem_of_map_to_list in Hin. eauto.
  - intros (e & Hk & He). exists (k, e). split; [done|].
    apply list_elem_of_filter. split; [done|]. by apply elem_of_map_to_list.
Qed.

Lemma lookup_mem_cleanup_expired results now ttl k :
  mem_cleanup_expired results now ttl !! k
  = match results !! k with
    | Some e => if is_expired now ttl e then None else Some e
    | None => None
    end.
Proof.
  unfold mem_cleanup_expired. rewrite lookup_foldl_delete.
  destruct (decide (k ∈ _)) as [Hin|Hin].
  - apply elem_of_expired_keys in Hin as (e & -> & ->). done.
  - destruct (results !! k) as [e|] eqn:Hk; [|done].
    destruct (is_expired now ttl e) eqn:He; [|done].
    exfalso. apply Hin, elem_of_expired_keys. eauto.
Qed.

(** C5: after [cleanup_expired(now, ttl)] of the in-memory store a key
    holds an entry exactly when it held that same entry before and
    [now - timestamp <= ttl]; the call returns normally. *)
Theorem cleanup_expired_removes_exactly_expired results now ttl :
  ∃ results',
    cleanup_expired results now ttl = (results', Return tt)
    ∧ ∀ k e, results' !! k = Some e
             ↔ results !! k = Some e ∧ now - entry_timestamp e <= inject_Z ttl.
Proof.
  exists (mem_cleanup_expired results now ttl). split; [done|].
  intros k e. rewrite lookup_mem_cleanup_expired.
  rewrite <- is_expired_false.
  destruct (results !! k) as [e'|].
  - destruct (is_expired now ttl e') eqn:He; split.
    + done.
    + intros [[= ->] He']. congruence.
    + by intros [= ->].
    + by intros [[= ->] _].
  - split; [done | by intros [? _]].
Qed.

End StoreFacts.

(** ** The token bucket *)



(** ** The multi-tenant limiter *)

(** C10: the first call for a client builds its bucket from [capacity] and
    [refill_rate] (5 and 1.0 when omitted); a call for a client that has a
    bucket ignores both arguments, and its outcome is that of the bucket's
    [allow_request]; a client that was served has a bucket from then on. *)
Theorem limiter_config_used_on_first_call_only
    (clients : gmap string TokenBucket.t) (client_id : string)
    (tokens : Z) (now : Q) :
  (clients !! client_id = None →
   ∀ capacity refill_rate now_create,
     MultiTenantRateLimiter.allow_request clients client_id tokens
       capacity refill_rate now_create now
     = let bucket :=
         TokenBucket.__init__ (default 5%Z capacity) (default 1 refill_rate)
           now_create in
       Some ((TokenBucket.allow_request bucket now tokens).1,
             <[client_id := (TokenBucket.allow_request bucket now tokens).2]>
               clients))
  ∧ (∀ bucket, clients !! client_id = Some bucket →
     ∀ capacity refill_rate now_create,
       MultiTenantRateLimiter.allow_request clients client_id tokens
         capacity refill_rate now_create now
       = Some ((TokenBucket.allow_request bucket now tokens).1,
               <[client_id := (TokenBucket.allow_request bucket now tokens).2]>
                 clients))
  ∧ (∀ capacity refill_rate now_create allowed clients',
       MultiTenantRateLimiter.allow_request clients client_id tokens
         capacity refill_rate now_create now = Some (allowed, clients') →
       is_Some (clients' !! client_id)).
Proof.
  unfold MultiTenantRateLimiter.allow_request,
    MultiTenantRateLimiter.ensure_client.
  split; [|split].
  - intros Hnone capacity refill_rate now_create. rewrite Hnone. simpl.
    rewrite lookup_insert_eq.
    destruct capacity, refill_rate; simpl;
      destruct (TokenBucket.allow_request _ now tokens); simpl;
      by rewrite insert_insert_eq.
  - intros bucket Hsome capacity refill_rate now_create. rewrite Hsome, Hsome.
    by destruct (TokenBucket.allow_request bucket now tokens).
  - intros capacity refill_rate now_create allowed clients' Hcall.
    destruct (_ !! client_id) as [bucket|] in Hcall; [|done].
    destruct (TokenBucket.allow_request bucket now tokens).
    injection Hcall as _ <-. rewrite lookup_insert_eq. eauto.
Qed.

Lemma limiter_config_used_on_first_call_only_witness :
  MultiTenantRateLimiter.allow_request ∅ "A" 1 (Some 3%Z) None 10 10
  = Some (true, {["A" := TokenBucket.mk 3 1 (3 - 1) 10]})
  ∧ MultiTenantRateLimiter.allow_request
      {["A" := TokenBucket.mk 3 1 (3 - 1) 10]} "A" 1 (Some 100%Z) (Some 9) 11 10
    = MultiTenantRateLimiter.allow_request
      {["A" := TokenBucket.mk 3 1 (3 - 1) 10]} "A" 1 None None 12 10.
Proof.
  split.
  - destruct (limiter_config_used_on_first_call_only ∅ "A" 1 10) as (H & _ & _).
    rewrite (H (lookup_empty _)). reflexivity.
  - destruct (limiter_config_used_on_first_call_only
                {["A" := TokenBucket.mk 3 1 (3 - 1) 10]} "A" 1 10) as (_ & H & _).
    rewrite !(H _ (lookup_singleton_eq _ _)). reflexivity.
Defined.

(** ** The metrics table, the janitor and shutdown *)

Section ProcessorFacts.
Context {Val World S : Type} {backend : IdempotentStorage Val S}.
Implicit Types p q : IdempotentProcessor S.

Lemma extends_refl p : extends p p.
Proof. by repeat split. Qed.

Lemma extends_trans p q r : extends p q → extends q r → extends p r.
Proof.
  intros (Hm & Hw & Hle & Hfr) (Hm' & Hw' & Hle' & Hfr').
  rewrite Hm in *. repeat split.
  - congruence.
  - auto.
  - intros name. etrans; [apply Hle | apply Hle'].
  - auto.
Qed.

Lemma metric_increment name name' (d : Counters) :
  default 0%Z (increment name' d !! name)
  = (default 0 (d !! name) + if decide (name' = name) then 1 else 0)%Z.
Proof.
  unfold increment. destruct (decide (name' = name)) as [->|Hne].
  - by rewrite lookup_insert_eq.
  - rewrite lookup_insert_ne by done. lia.
Qed.

Lemma extends_record_metric name p : extends p (_record_metric name p).
Proof.
  unfold extends, _record_metric, metric. simpl. repeat split.
  - intros [d Hd]. rewrite lookup_alter_eq, Hd. simpl. eauto.
  - intros name'. rewrite lookup_alter_eq.
    destruct (py_dicts p !! _metrics p) as [d|]; simpl; [|done].
    rewrite metric_increment. case_decide; lia.
  - intros l d Hl Hd. by rewrite lookup_alter_ne.
Qed.

Lemma extends_get_metrics p : extends p (get_metrics p).2.
Proof.
  unfold extends, get_metrics, metric. simpl.
  pose proof (is_fresh (dom (py_dicts p))) as Hfresh.
  set (l := fresh (dom (py_dicts p))) in *.
  assert (∀ l' d, py_dicts p !! l' = Some d →
            <[l := default ∅ (py_dicts p !! _metrics p)]> (py_dicts p) !! l'
            = Some d) as Hold.
  { intros l' d Hd. rewrite lookup_insert_ne; [done|].
    intros <-. apply Hfresh, elem_of_dom. eauto. }
  repeat split.
  - intros [d Hd]. rewrite (Hold _ _ Hd). eauto.
  - intros name. destruct (py_dicts p !! _metrics p) as [d|] eqn:Hd.
    + by rewrite (Hold _ _ Hd).
    + simpl.
      assert (default ∅ (<[l := ∅]> (py_dicts p) !! _metrics p)
              = (∅ : Counters)) as ->; [|done].
      destruct (decide (l = _metrics p)) as [<-|Hne].
      * by rewrite lookup_insert_eq.
      * by rewrite lookup_insert_ne, Hd.
  - intros l' d _ Hd. by apply Hold.
Qed.

(** Fields other than the dictionary heap do not matter. *)
Lemma extends_same_dicts p q r :
  _metrics r = _metrics q → py_dicts r = py_dicts q → extends p q → extends p r.
Proof.
  intros Hm Hd (Hm' & Hw & Hle & Hfr). unfold extends, metric in *.
  rewrite Hm, Hd. by repeat split.
Qed.

Lemma extends_coordinate key p : extends p (coordinate key p).
Proof.
  unfold coordinate.
  destruct (_key_locks p !! key); simpl;
    (destruct (_in_flight p !! key);
     [ eapply extends_trans; [|apply extends_record_metric];
       by eapply extends_same_dicts; [..|apply extends_refl]
     | by eapply extends_same_dicts; [..|apply extends_refl] ]).
Qed.

Lemma extends_guarded_body p cur nw key (action : @Action Val World) w :
  extends p (guarded_body p cur nw key action w).1.2.
Proof.
  unfold guarded_body.
  destruct (get (storage p) key) as [s1 [cached|e]]; simpl.
  - destruct (fresh_entry _ cur cached) as [e|]; simpl.
    + by eapply extends_same_dicts; [..|apply extends_refl].
    + destruct (action w) as [w' [result|e]]; simpl.
      * destruct (set_success _ nw key result _) as [s3 [[]|e]]; simpl.
        all: eapply extends_same_dicts; [..|apply extends_record_metric]; try done.
        all: by instantiate (1 := set_storage s1 p).
      * eapply extends_trans; [|apply extends_record_metric].
        by eapply extends_same_dicts; [..|apply extends_refl].
  - by eapply extends_same_dicts; [..|apply extends_refl].
Qed.

Lemma extends_process p cur nw key (action : @Action Val World) w o p' w' :
  process p cur nw key action w = Some (o, p', w') → extends p p'.
Proof.
  unfold process.
  destruct (get (storage p) key) as [s0 [cached|e]]; simpl.
  - destruct (fresh_entry _ cur cached) as [e|]; simpl.
    + intros [= <- <- <-].
      eapply extends_trans; [|apply extends_record_metric].
      by eapply extends_same_dicts; [..|apply extends_refl].
    + destruct (key_locked key _); [done|].
      pose proof (extends_guarded_body
        (acquire key (coordinate key (set_storage s0 p))) cur nw key action w) as Hg.
      destruct (guarded_body _ cur nw key action w) as [[o2 p2] w2].
      intros [= <- <- <-]. simpl in Hg.
      eapply extends_same_dicts; [done|done|].
      eapply extends_trans; [|apply Hg].
      eapply extends_same_dicts; [done|done|].
      eapply extends_trans; [|apply extends_coordinate].
      by eapply extends_same_dicts; [..|apply extends_refl].
  - intros [= <- <- <-]. by eapply extends_same_dicts; [..|apply extends_refl].
Qed.

Lemma extends_cleanup_pass now p : extends p (cleanup_pass now p).2.
Proof.
  unfold cleanup_pass.
  destruct (cleanup_expired (storage p) now (ttl_seconds p)) as [s1 [[]|e]]; simpl.
  - by eapply extends_same_dicts; [..|apply extends_refl].
  - destruct (exn_is_Exception e); simpl;
      by eapply extends_same_dicts; [..|apply extends_refl].
Qed.

Lemma extends_run_cleanup_loop schedule p :
  extends p (_run_cleanup_loop schedule p).2.
Proof.
  revert p. induction schedule as [|[now stop] rest IH]; intros p; simpl.
  - destruct (_shutdown_event p); apply extends_refl.
  - destruct (_shutdown_event p); [apply extends_refl|].
    pose proof (extends_cleanup_pass now p) as Hp.
    destruct (cleanup_pass now p) as [[[]|e] p1]; simpl in *; [|done].
    eapply extends_trans; [|apply IH].
    destruct stop; [|done].
    by eapply extends_same_dicts; [..|apply Hp].
Qed.

Lemma extends_shutdown joined timeout p : extends p (shutdown joined timeout p).
Proof.
  unfold shutdown. destruct (_shutdown_event p); [apply extends_refl|].
  by eapply extends_same_dicts; [..|apply extends_refl].
Qed.

Lemma extends_record_metrics names p :
  extends p (foldr _record_metric p names).
Proof.
  induction names as [|name names IH]; simpl; [apply extends_refl|].
  eapply extends_trans; [apply IH | apply extends_record_metric].
Qed.

(** C8: a second [shutdown] is a no-op: whatever its arguments, it leaves
    the processor as the first call left it, with the event set. *)
Theorem shutdown_idempotent p joined1 timeout1 joined2 timeout2 :
  shutdown joined2 timeout2 (shutdown joined1 timeout1 p)
  = shutdown joined1 timeout1 p
  ∧ _shutdown_event (shutdown joined1 timeout1 p) = true.
Proof.
  unfold shutdown. destruct (_shutdown_event p) eqn:Hset; simpl.
  - by rewrite Hset.
  - done.
Qed.

(** C7: when the errors the backend's [cleanup_expired] raises are
    [Exception]s, every pass of the janitor's loop body ends normally, the
    loop never dies, it goes on with the rest of the schedule after a pass
    whatever the pass met, it is still waiting when nobody set the event,
    and [process] does not depend on [cleanup_expired] at all. *)
Theorem janitor_survives_cleanup_errors
    (Hexc : ∀ s now ttl s' e,
       cleanup_expired s now ttl = (s', Raise e) → exn_is_Exception e = true) :
  (∀ now p, (cleanup_pass now p).1 = Return tt)
  ∧ (∀ now p s' e,
       cleanup_expired (storage p) now (ttl_seconds p) = (s', Raise e) →
       cleanup_pass now p
       = (Return tt,
          log_record "WARNING" ("Cleanup error: " +:+ exn_message e)
            (set_storage s' p)))
  ∧ (∀ schedule p e, (_run_cleanup_loop schedule p).1 ≠ LoopDied e)
  ∧ (∀ now stop rest p, _shutdown_event p = false →
       _run_cleanup_loop ((now, stop) :: rest) p
       = _run_cleanup_loop rest
           (if stop then set_shutdown_event true (cleanup_pass now p).2
            else (cleanup_pass now p).2))
  ∧ (∀ schedule p, _shutdown_event p = false →
       Forall (λ item, item.2 = false) schedule →
       (_run_cleanup_loop schedule p).1 = LoopWaiting)
  ∧ (∀ cleanup' p cur nw key (action : @Action Val World) w,
       @process Val World S
         (Build_IdempotentStorage Val S get set_success cleanup')
         p cur nw key action w
       = process p cur nw key action w).
Proof.
  assert (∀ now p, (cleanup_pass now p).1 = Return tt) as Hpass.
  { intros now p. unfold cleanup_pass.
    destruct (cleanup_expired (storage p) now (ttl_seconds p))
      as [s1 [[]|e]] eqn:Hc; [done|].
    by rewrite (Hexc _ _ _ _ _ Hc). }
  assert (∀ now stop rest p, _shutdown_event p = false →
       _run_cleanup_loop ((now, stop) :: rest) p
       = _run_cleanup_loop rest
           (if stop then set_shutdown_event true (cleanup_pass now p).2
            else (cleanup_pass now p).2)) as Hnext.
  { intros now stop rest p Hrun. simpl. rewrite Hrun.
    specialize (Hpass now p).
    by destruct (cleanup_pass now p) as [[[]|e] p1]. }
  split; [done|]. split; [|split; [|split; [done|split]]].
  - intros now p s' e Hc. unfold cleanup_pass.
    by rewrite Hc, (Hexc _ _ _ _ _ Hc).
  - intros schedule. induction schedule as [|[now stop] rest IH]; intros p e.
    + simpl. by destruct (_shutdown_event p).
    + destruct (_shutdown_event p) eqn:Hrun.
      * simpl. by rewrite Hrun.
      * rewrite Hnext by done. apply IH.
  - intros schedule. induction schedule as [|[now stop] rest IH];
      intros p Hrun Hall.
    + simpl. by rewrite Hrun.
    + rewrite Hnext by done. apply Forall_cons in Hall as [Hstop Hall].
      simpl in Hstop. subst stop. apply IH; [|done].
      unfold cleanup_pass.
      destruct (cleanup_expired (storage p) now (ttl_seconds p)) as [s1 [[]|e]];
        [done|]. by destruct (exn_is_Exception e).
  - done.
Qed.

End ProcessorFacts.

Lemma janitor_survives_cleanup_errors_witness :
  (∀ s now ttl s' e,
     @cleanup_expired nat unit failing_sweep_backend s now ttl = (s', Raise e) →
     exn_is_Exception e = true)
  ∧ (@_run_cleanup_loop nat unit failing_sweep_backend
       [(1, false); (2, false)] (__init__ 300 tt 30 ∅)).1 = LoopWaiting.
Proof.
  assert (∀ s now ttl s' e,
     @cleanup_expired nat unit failing_sweep_backend s now ttl = (s', Raise e) →
     exn_is_Exception e = true) as Hexc.
  { intros s now ttl s' e [= _ <-]. reflexivity. }
  split; [exact Hexc|].
  apply (@janitor_survives_cleanup_errors nat nat unit failing_sweep_backend Hexc).
  - reflexivity.
  - repeat constructor.
Defined.

(** ** Sequential calls on the in-memory store *)

Section InMemoryFacts.
Context {Val World : Type}.
Implicit Types p : IdempotentProcessor (gmap string (CacheEntry Val)).
Implicit Types action : @Action Val World.

Lemma set_storage_same {S} (p : IdempotentProcessor S) :
  set_storage (storage p) p = p.
Proof. by destruct p. Qed.

Lemma entry_fresh_spec ttl cur (e : CacheEntry Val) :
  entry_fresh ttl cur e = true
  ↔ entry_success e = true ∧ cur - entry_timestamp e <= inject_Z ttl.
Proof.
  destruct e as [[ts r] ok]. unfold entry_fresh, entry_success, entry_timestamp.
  simpl. by rewrite andb_true_iff, Qle_bool_iff.
Qed.

Lemma fresh_entry_Some ttl cur (cached : option (CacheEntry Val)) e :
  fresh_entry ttl cur cached = Some e
  ↔ cached = Some e ∧ entry_success e = true
    ∧ cur - entry_timestamp e <= inject_Z ttl.
Proof.
  unfold fresh_entry. destruct cached as [e'|]; [|by split; [|intros []]].
  destruct (entry_fresh ttl cur e') eqn:Hf.
  - apply entry_fresh_spec in Hf as [Hs Hle]. split.
    + by intros [= <-].
    + by intros ([= ->] & _).
  - split; [done|]. intros ([= ->] & Hs & Hle).
    assert (entry_fresh ttl cur e = true) by (by apply entry_fresh_spec).
    congruence.
Qed.

(** An entry that is stale stays stale. *)
Lemma fresh_entry_None_later ttl cur cur' (cached : option (CacheEntry Val)) :
  cur <= cur' →
  fresh_entry ttl cur cached = None → fresh_entry ttl cur' cached = None.
Proof.
  intros Hle Hnone.
  destruct (fresh_entry ttl cur' cached) as [e|] eqn:Hf; [|done].
  apply fresh_entry_Some in Hf as (-> & Hs & Ht).
  assert (fresh_entry ttl cur (Some e) = Some e) as Hf'; [|congruence].
  apply fresh_entry_Some. repeat split; [done|]. lra.
Qed.

Lemma key_locked_coordinate {S} key key' (p : IdempotentProcessor S) :
  key_locked key' (coordinate key p) = key_locked key' p.
Proof.
  unfold coordinate, key_locked.
  destruct (_key_locks p !! key) eqn:Hk; simpl;
    destruct (_in_flight p !! key); simpl; try done.
  all: destruct (decide (key = key')) as [->|Hne];
    [by rewrite lookup_insert_eq, Hk | by rewrite lookup_insert_ne].
Qed.

(** A call that finds a fresh entry returns its result and only counts a
    hit. *)
Lemma process_cached p cur nw key action w e :
  fresh_entry (ttl_seconds p) cur (storage p !! key) = Some e →
  process p cur nw key action w
  = Some (Return (entry_result e), _record_metric "cache_hit" p, w).
Proof.
  intros Hf. unfold process. simpl. unfold mem_get.
  rewrite set_storage_same, Hf. done.
Qed.

(** A call that finds no fresh entry, with the lock of the key free,
    invokes the callable once; it stores the result when there is one and
    leaves the store alone otherwise. *)
Lemma process_executes p cur nw key action w :
  fresh_entry (ttl_seconds p) cur (storage p !! key) = None →
  key_locked key p = false →
  ∃ p', process p cur nw key action w = Some ((action w).2, p', (action w).1)
    ∧ ttl_seconds p' = ttl_seconds p
    ∧ key_locked key p' = false
    ∧ storage p'
      = match (action w).2 with
        | Return result => <[key := (nw, result, true)]> (storage p)
        | Raise _ => storage p
        end.
Proof.
  intros Hf Hfree. unfold process. simpl. unfold mem_get.
  rewrite set_storage_same, Hf, key_locked_coordinate, Hfree.
  unfold guarded_body. simpl. unfold mem_get.
  assert (storage (coordinate key p) = storage p) as Hst.
  { unfold coordinate. by destruct (_key_locks p !! key);
      simpl; destruct (_in_flight p !! key). }
  assert (ttl_seconds (coordinate key p) = ttl_seconds p) as Httl.
  { unfold coordinate. by destruct (_key_locks p !! key);
      simpl; destruct (_in_flight p !! key). }
  destruct (action w) as [w' [result|e]]; simpl.
  all: eexists; split; [by rewrite Hst, Httl, Hf|].
  all: simpl; unfold key_locked; simpl.
  all: by rewrite lookup_insert_eq, ?Hst, ?Httl.
Qed.

Lemma fresh_entry_stored ttl cur nw (key : string) (r : Val)
    (results : gmap string (CacheEntry Val)) :
  fresh_entry ttl cur (<[key := ((nw, r, true) : CacheEntry Val)]> results !! key)
  = if Qle_bool (cur - nw) (inject_Z ttl) then Some (nw, r, true) else None.
Proof. rewrite lookup_insert_eq. done. Qed.

(** A call that finds no fresh entry, with the lock of the key held, never
    returns. *)
Lemma process_blocked p cur nw key action w :
  fresh_entry (ttl_seconds p) cur (storage p !! key) = None →
  key_locked key p = true →
  process p cur nw key action w = None.
Proof.
  intros Hf Hlocked. unfold process. simpl. unfold mem_get.
  by rewrite set_storage_same, Hf, key_locked_coordinate, Hlocked.
Qed.

(** The two ways a call can end. *)
Lemma process_inv p cur nw key action w o p' w' :
  process p cur nw key action w = Some (o, p', w') →
  (∃ e, fresh_entry (ttl_seconds p) cur (storage p !! key) = Some e
        ∧ o = Return (entry_result e) ∧ w' = w
        ∧ p' = _record_metric "cache_hit" p)
  ∨ (fresh_entry (ttl_seconds p) cur (storage p !! key) = None
     ∧ key_locked key p = false
     ∧ o = (action w).2 ∧ w' = (action w).1
     ∧ ttl_seconds p' = ttl_seconds p
     ∧ key_locked key p' = false
     ∧ storage p'
       = match (action w).2 with
         | Return result => <[key := (nw, result, true)]> (storage p)
         | Raise _ => storage p
         end).
Proof.
  intros Hp.
  destruct (fresh_entry (ttl_seconds p) cur (storage p !! key)) as [e|] eqn:Hf.
  - rewrite (process_cached _ _ _ _ _ _ _ Hf) in Hp. injection Hp as <- <- <-.
    left. by exists e.
  - destruct (key_locked key p) eqn:Hfree.
    + by rewrite process_blocked in Hp.
    + destruct (process_executes p cur nw key action w Hf Hfree)
        as (p1 & Hp1 & Hrest).
      rewrite Hp1 in Hp. injection Hp as <- <- <-. by right.
Qed.

(** C2: a call that raises [e] does so because its callable raised [e]; it
    leaves the store as it was, and any later call for the key invokes its
    callable again.  A callable that raises is reached, and its error
    raised by the call, whenever no fresh entry stands in the way and the
    lock of the key is free; a callable that always raises is then invoked
    by every one of any number of later calls, each of which raises [e],
    and the store never changes. *)
Theorem failed_action_is_not_cached p t0 key action :
  (∀ nw w e p' w',
     process p t0 nw key action w = Some (Raise e, p', w') →
     action w = (w', Raise e)
     ∧ storage p' = storage p
     ∧ ∀ cur2 nw2 action2 w2, t0 <= cur2 →
         ∃ p'', process p' cur2 nw2 key action2 w2
                = Some ((action2 w2).2, p'', (action2 w2).1))
  ∧ (fresh_entry (ttl_seconds p) t0 (storage p !! key) = None →
     key_locked key p = false →
     (∀ nw w w' e, action w = (w', Raise e) →
        ∃ p', process p t0 nw key action w = Some (Raise e, p', w'))
     ∧ (∀ e calls w, always_raises action e →
          Forall (λ c, t0 <= c.1) calls →
          ∃ p', process_many p calls key action w
                = Some (replicate (length calls) (Raise e), p',
                        invoke_n (length calls) action w)
            ∧ storage p' = storage p)).
Proof.
  split.
  - intros nw w e p' w' Hp.
    apply process_inv in Hp
      as [(e' & _ & [=] & _)|(Hstale & Hfree & Ho & -> & Httl & Hfree' & Hst)].
    rewrite <- Ho in Hst. split; [|split; [done|]].
    { destruct (action w) as [w1 o1]. simpl in *. by subst o1. }
    intros cur2 nw2 action2 w2 Hle.
    destruct (process_executes p' cur2 nw2 key action2 w2) as (p'' & Hp'' & _).
    + rewrite Httl, Hst. by eapply fresh_entry_None_later.
    + done.
    + eauto.
  - intros Hstale Hfree. split.
    + intros nw w w' e Hact.
      destruct (process_executes p t0 nw key action w Hstale Hfree)
        as (p' & Hp & _).
      rewrite Hact in Hp. eauto.
    + intros e calls w Hraise Hcalls. revert p w Hstale Hfree Hcalls.
      induction calls as [|[cur nw] calls IH]; intros p w Hstale Hfree Hcalls.
      * simpl. eauto.
      * apply Forall_cons in Hcalls as [Hcur Hcalls]. simpl in Hcur.
        destruct (process_executes p cur nw key action w)
          as (p1 & Hp1 & Httl & Hfree1 & Hst1);
          [by eapply fresh_entry_None_later | done |].
        rewrite (Hraise w) in Hp1, Hst1.
        destruct (IH p1 (action w).1) as (p2 & Hp2 & Hst2);
          [by rewrite Httl, Hst1 | done | done |].
        exists p2. simpl. rewrite Hp1, Hp2. split; [done | congruence].
Qed.

(** C3: a call that runs the callable with success stores the result; a
    second call that starts within [ttl_seconds] of the stored timestamp
    returns the same result without invoking the callable, so the two
    calls invoke it exactly once; a call that starts more than
    [ttl_seconds] after the stored timestamp invokes the callable again. *)
Theorem success_is_cached_until_ttl p cur1 nw1 cur2 nw2 key action w w1 r :
  fresh_entry (ttl_seconds p) cur1 (storage p !! key) = None →
  key_locked key p = false →
  action w = (w1, Return r) →
  cur2 - nw1 <= inject_Z (ttl_seconds p) →
  (∃ p2, process_many p [(cur1, nw1); (cur2, nw2)] key action w
         = Some ([Return r; Return r], p2, invoke_n 1 action w))
  ∧ (∀ cur3 nw3, inject_Z (ttl_seconds p) < cur3 - nw1 →
       (∃ p3, process_many p [(cur1, nw1); (cur2, nw2); (cur3, nw3)] key action w
              = Some ([Return r; Return r; (action w1).2], p3,
                      invoke_n 2 action w))
       ∧ (∃ p3, process_many p [(cur1, nw1); (cur3, nw3)] key action w
                = Some ([Return r; (action w1).2], p3, invoke_n 2 action w))).
Proof.
  intros Hstale Hfree Hact Hin.
  destruct (process_executes p cur1 nw1 key action w Hstale Hfree)
    as (p1 & Hp1 & Httl & Hfree1 & Hst1).
  rewrite Hact in Hp1, Hst1. simpl in Hp1, Hst1.
  assert (process p1 cur2 nw2 key action w1
          = Some (Return r, _record_metric "cache_hit" p1, w1)) as Hp2.
  { apply (process_cached p1 cur2 nw2 key action w1 (nw1, r, true)).
    rewrite Httl, Hst1, fresh_entry_stored.
    apply Qle_bool_iff in Hin. by rewrite Hin. }
  assert (∀ p' cur3 nw3, ttl_seconds p' = ttl_seconds p →
            storage p' = storage p1 → key_locked key p' = false →
            inject_Z (ttl_seconds p) < cur3 - nw1 →
            ∃ p3, process p' cur3 nw3 key action w1
                  = Some ((action w1).2, p3, (action w1).1)) as Hp3.
  { intros p' cur3 nw3 Httl' Hst' Hfree' Hout.
    destruct (process_executes p' cur3 nw3 key action w1) as (p3 & Hp3 & _);
      [|done|eauto].
    rewrite Httl', Hst', Hst1, fresh_entry_stored.
    destruct (Qle_bool (cur3 - nw1) (inject_Z (ttl_seconds p))) eqn:Hle; [|done].
    apply Qle_bool_iff in Hle. lra. }
  simpl. rewrite Hp1, Hp2, Hact. simpl. split; [eauto|].
  intros cur3 nw3 Hout. split.
  - destruct (Hp3 (_record_metric "cache_hit" p1) cur3 nw3) as (p3 & ->);
      [done..|]. eauto.
  - destruct (Hp3 p1 cur3 nw3) as (p3 & ->); [done..|]. eauto.
Qed.

End InMemoryFacts.

(** ** Concurrent calls: mutual exclusion *)

Section ConcurrentFacts.
Context {Val World S : Type} {backend : IdempotentStorage Val S}.
Implicit Types s : @System Val World S.
Implicit Types p : IdempotentProcessor S.
Implicit Types action : @Action Val World.
Implicit Types w : World.







End ConcurrentFacts.

(** ** Concurrent calls on the in-memory store: single flight *)

Section SingleFlightFacts.
Context {Val World : Type}.
Implicit Types s : @System Val World (gmap string (CacheEntry Val)).
Implicit Types p : IdempotentProcessor (gmap string (CacheEntry Val)).
Implicit Types action : @Action Val World.
Implicit Types w : World.
Implicit Types tr : list (@Label Val).
Implicit Types pc : @Pc Val.


Lemma storage_coordinate {S} key (p : IdempotentProcessor S) :
  storage (coordinate key p) = storage p.
Proof.
  unfold coordinate.
  by destruct (_key_locks p !! key); simpl; destruct (_in_flight p !! key).
Qed.

Lemma ttl_coordinate {S} key (p : IdempotentProcessor S) :
  ttl_seconds (coordinate key p) = ttl_seconds p.
Proof.
  unfold coordinate.
  by destruct (_key_locks p !! key); simpl; destruct (_in_flight p !! key).
Qed.





















End SingleFlightFacts.



(** ** Cache hits *)

Section CacheHitFacts.
Context {Val World : Type}.
Implicit Types s : @System Val World (gmap string (CacheEntry Val)).
Implicit Types tr : list (@Label Val).



End CacheHitFacts.



Lemma failed_action_is_not_cached_witness :
  ∃ p', process_many (new_processor 10) [(1, 1); (2, 2)] "fail_key_001"
          flaky_action 0%nat
        = Some ([Raise (mkExn "ValueError" "Payment failed" true);
                 Raise (mkExn "ValueError" "Payment failed" true)], p', 2%nat)
        ∧ storage p' = storage (new_processor 10).
Proof.
  assert (fresh_entry (ttl_seconds (new_processor 10)) 0
            (storage (new_processor 10) !! "fail_key_001") = None) as Hstale
    by reflexivity.
  assert (key_locked "fail_key_001" (new_processor 10) = false) as Hfree
    by reflexivity.
  destruct (failed_action_is_not_cached (new_processor 10) 0 "fail_key_001"
              flaky_action) as [_ Hreached].
  destruct (Hreached Hstale Hfree) as [_ Hmany].
  apply (Hmany (mkExn "ValueError" "Payment failed" true) [(1, 1); (2, 2)] 0%nat).
  - intros w. reflexivity.
  - repeat constructor; simpl; lra.
Defined.

Lemma success_is_cached_until_ttl_witness :
  ∃ p2, process_many (new_processor 1) [(0, 0); (1 # 2, 1 # 2)] "ttl_key_001"
          charge_action 0%nat
        = Some ([Return "ch_123"%string; Return "ch_123"%string], p2, 1%nat).
Proof.
  assert (fresh_entry (ttl_seconds (new_processor 1)) 0
            (storage (new_processor 1) !! "ttl_key_001") = None) as Hstale
    by reflexivity.
  assert (key_locked "ttl_key_001" (new_processor 1) = false) as Hfree
    by reflexivity.
  assert (charge_action 0%nat = (1%nat, Return "ch_123"%string)) as Hact
    by reflexivity.
  assert ((1 # 2) - 0 <= inject_Z (ttl_seconds (new_processor 1))) as Hin
    by (change (ttl_seconds (new_processor 1)) with 1%Z; unfold Qle; simpl; lia).
  exact (proj1 (success_is_cached_until_ttl (new_processor 1) 0 0 (1 # 2) (1 # 2)
                  "ttl_key_001" charge_action 0%nat 1%nat "ch_123"%string
                  Hstale Hfree Hact Hin)).
Defined.

(** ** The metrics table under every operation *)

Section MetricsFacts.
Context {Val World S : Type} {backend : IdempotentStorage Val S}.
Implicit Types p q : IdempotentProcessor S.
Implicit Types s : @System Val World S.

Lemma extends_thread_step tid key (action : @Action Val World) pc p w clock
    l p' w' pc' :
  thread_step tid key action pc p w clock = Some (l, p', w', pc') →
  extends p p'.
Proof.
  destruct pc; simpl.
  - destruct (get (storage p) key) as [s0 [cached|e]].
    + destruct (fresh_entry _ clock cached); intros [= <- <- <- <-].
      * eapply extends_trans; [|apply extends_record_metric].
        by eapply extends_same_dicts; [..|apply extends_refl].
      * by eapply extends_same_dicts; [..|apply extends_refl].
    + intros [= <- <- <- <-].
      by eapply extends_same_dicts; [..|apply extends_refl].
  - intros [= <- <- <- <-]. apply extends_coordinate.
  - destruct (key_locked key p); [done|]. intros [= <- <- <- <-].
    by eapply extends_same_dicts; [..|apply extends_refl].
  - destruct (get (storage p) key) as [s1 [cached|e]].
    + destruct (fresh_entry _ current_time cached); intros [= <- <- <- <-].
      * by eapply extends_same_dicts; [..|apply extends_refl].
      * eapply extends_trans; [|apply extends_record_metric].
        by eapply extends_same_dicts; [..|apply extends_refl].
    + intros [= <- <- <- <-].
      by eapply extends_same_dicts; [..|apply extends_refl].
  - destruct (action w) as [w1 [result|e]]; intros [= <- <- <- <-];
      apply extends_refl.
  - destruct (set_success _ _ _ _ _) as [s3 [[]|e]]; intros [= <- <- <- <-];
      by eapply extends_same_dicts; [..|apply extends_refl].
  - intros [= <- <- <- <-].
    by eapply extends_same_dicts; [..|apply extends_refl].
  - intros [= <- <- <- <-].
    by eapply extends_same_dicts; [..|apply extends_refl].
  - done.
Qed.

Lemma extends_sys_step m s l s' :
  sys_step m s = Some (l, s') → extends (sys_processor s) (sys_processor s').
Proof.
  destruct m as [tid|d| |joined]; simpl.
  - destruct (sys_threads s !! tid) as [th|]; [|done].
    destruct (thread_step _ _ _ _ _ _ _) as [[[[l1 p] w] pc]|] eqn:Hstep; [|done].
    intros [= <- <-]. simpl. by eapply extends_thread_step.
  - destruct (Qle_bool 0 d); [|done]. intros [= <- <-]. apply extends_refl.
  - destruct (_ || _); [done|].
    pose proof (extends_cleanup_pass (sys_clock s) (sys_processor s)) as Hp.
    destruct (cleanup_pass _ _) as [[[]|e] p1]; intros [= <- <-]; simpl in *.
    + done.
    + by eapply extends_same_dicts; [..|apply Hp].
  - intros [= <- <-]. apply extends_shutdown.
Qed.

Lemma init_table ttl (b : S) interval dicts :
  py_dicts (__init__ ttl b interval dicts) !! _metrics (__init__ ttl b interval dicts)
  = Some ∅.
Proof. unfold __init__. simpl. apply lookup_insert_eq. Qed.

(** C9: no operation of the processor makes a counter smaller: not
    [_record_metric], [process], [get_metrics], [shutdown], the janitor's
    loop, nor any step of the concurrent system; and the dictionary
    [get_metrics] returns is a new object that holds the counters of that
    moment and keeps them whatever is recorded or done afterwards. *)
Theorem metrics_monotone_and_snapshot_independent :
  (∀ name' p name, (metric name p ≤ metric name (_record_metric name' p))%Z)
  ∧ (∀ p cur nw key (action : @Action Val World) w o p' w' name,
       process p cur nw key action w = Some (o, p', w') →
       (metric name p ≤ metric name p')%Z)
  ∧ (∀ p name, (metric name p ≤ metric name (get_metrics p).2)%Z)
  ∧ (∀ joined timeout p name,
       (metric name p ≤ metric name (shutdown joined timeout p))%Z)
  ∧ (∀ schedule p name,
       (metric name p ≤ metric name (_run_cleanup_loop schedule p).2)%Z)
  ∧ (∀ m s l s' name, sys_step m s = Some (l, s') →
       (metric name (sys_processor s) ≤ metric name (sys_processor s'))%Z)
  ∧ (∀ p, is_Some (py_dicts p !! _metrics p) →
       (get_metrics p).1 ≠ _metrics (get_metrics p).2
       ∧ py_dicts (get_metrics p).2 !! (get_metrics p).1 = Some (table p)
       ∧ (∀ names,
            py_dicts (foldr _record_metric (get_metrics p).2 names)
              !! (get_metrics p).1 = Some (table p))
       ∧ (∀ q, extends (get_metrics p).2 q →
            py_dicts q !! (get_metrics p).1 = Some (table p))).
Proof.
  split; [|split; [|split; [|split; [|split; [|split]]]]].
  - intros name' p name. apply extends_record_metric.
  - intros p cur nw key action w o p' w' name Hp.
    by apply (extends_process _ _ _ _ _ _ _ _ _ Hp).
  - intros p name. apply extends_get_metrics.
  - intros joined timeout p name. apply extends_shutdown.
  - intros schedule p name. apply extends_run_cleanup_loop.
  - intros m s l s' name Hstep. by apply (extends_sys_step _ _ _ _ Hstep).
  - intros p [d Hd].
    assert ((get_metrics p).1 ≠ _metrics p) as Hne.
    { unfold get_metrics. simpl. intros Heq.
      apply (is_fresh (dom (py_dicts p))). rewrite Heq. apply elem_of_dom. eauto. }
    assert (py_dicts (get_metrics p).2 !! (get_metrics p).1 = Some (table p))
      as Hsnap.
    { unfold get_metrics, table. simpl. apply lookup_insert_eq. }
    assert (∀ q, extends (get_metrics p).2 q →
              py_dicts q !! (get_metrics p).1 = Some (table p)) as Hkeep.
    { intros q (_ & _ & _ & Hfr). by apply Hfr. }
    split; [done|]. split; [done|]. split; [|done].
    intros names. apply Hkeep, extends_record_metrics.
Qed.

End MetricsFacts.

Lemma metrics_monotone_and_snapshot_independent_witness :
  py_dicts
    (foldr _record_metric (get_metrics (new_processor 10)).2
       ["cache_hit"; "cache_miss"]%string)
    !! (get_metrics (new_processor 10)).1
  = Some (table (new_processor 10)).
Proof.
  destruct (@metrics_monotone_and_snapshot_independent string nat
              (gmap string (CacheEntry string)) _)
    as (_ & _ & _ & _ & _ & _ & Hsnap).
  destruct (Hsnap (new_processor 10)) as (_ & _ & Hnames & _).
  - unfold new_processor. rewrite init_table. eauto.
  - apply Hnames.
Defined.

(** ** A call run alone by one thread *)

Section SoloFacts.
Context {Val World : Type}.
Implicit Types s : @System Val World (gmap string (CacheEntry Val)).
Implicit Types p : IdempotentProcessor (gmap string (CacheEntry Val)).
Implicit Types action : @Action Val World.
Implicit Types w : World.

Lemma exec_thread_step s0 tr p w clock threads tid key action pc l p' w' pc' :
  exec s0 tr (mkSystem p w clock (<[tid := mkThread key action pc]> threads)) →
  (tid < length threads)%nat →
  thread_step tid key action pc p w clock = Some (l, p', w', pc') →
  exec s0 (l :: tr)
    (mkSystem p' w' clock (<[tid := mkThread key action pc']> threads)).
Proof.
  intros Hex Hlen Hstep. apply (exec_step _ _ _ (MThread tid) _ _ Hex).
  simpl. rewrite list_lookup_insert_eq by done. simpl. rewrite Hstep.
  by rewrite list_insert_insert_eq.
Qed.

Lemma exec_tick s0 tr p w clock threads d :
  exec s0 tr (mkSystem p w clock threads) →
  0 <= d →
  exec s0 (LTick d :: tr) (mkSystem p w (clock + d) threads).
Proof.
  intros Hex Hd. apply (exec_step _ _ _ (MTick d) _ _ Hex). simpl.
  apply Qle_bool_iff in Hd. by rewrite Hd.
Qed.

(** The function [process] is what the steps of a thread compute when no
    other thread moves: a thread about to call [process] at time [clock],
    whose callable takes [d] seconds, reaches [Returned o] with the
    processor and the world [process] returns. *)
Lemma process_is_a_solo_run p w clock d threads tid key action o p' w' :
  threads !! tid = Some (mkThread key action AtEntry) →
  0 <= d →
  process p clock (clock + d) key action w = Some (o, p', w') →
  ∃ tr, exec (mkSystem p w clock threads) tr
          (mkSystem p' w' (clock + d)
             (<[tid := mkThread key action (Returned o)]> threads)).
Proof.
  intros Hth Hd.
  assert (tid < length threads)%nat as Hlen by (by eapply lookup_lt_Some).
  assert (exec (mkSystem p w clock threads) []
            (mkSystem p w clock (<[tid := mkThread key action AtEntry]> threads)))
    as H0 by (rewrite list_insert_id by done; apply exec_refl).
  unfold process. simpl. unfold mem_get.
  destruct (fresh_entry (ttl_seconds p) clock (storage p !! key)) as [e|] eqn:Hf.
  - intros [= <- <- <-]. eexists. apply exec_tick; [|done].
    eapply exec_thread_step; [exact H0 | done |].
    simpl. unfold mem_get. by rewrite Hf.
  - destruct (key_locked key (coordinate key (set_storage (storage p) p)))
      eqn:Hfree; [done|].
    unfold guarded_body. simpl. unfold mem_get.
    rewrite storage_coordinate, ttl_coordinate. simpl. rewrite Hf.
    assert (∃ tr, exec (mkSystem p w clock threads) tr
              (mkSystem (_record_metric "cache_miss"
                           (set_storage (storage p)
                              (acquire key
                                 (coordinate key (set_storage (storage p) p)))))
                 w (clock + d) (<[tid := mkThread key action InAction]> threads)))
      as [tr4 H4].
    { eexists. apply exec_tick; [|done].
      eapply exec_thread_step; [|done|].
      - eapply exec_thread_step; [|done|].
        + eapply exec_thread_step; [|done|].
          * eapply exec_thread_step; [exact H0 | done |].
            simpl. unfold mem_get. by rewrite Hf.
          * reflexivity.
        + simpl. by rewrite Hfree.
      - simpl. unfold mem_get.
        rewrite storage_coordinate, ttl_coordinate. simpl. by rewrite Hf. }
    assert (∀ tr o1 p1 w1,
              exec (mkSystem p w clock threads) tr
                (mkSystem p1 w1 (clock + d)
                   (<[tid := mkThread key action (AtRelease o1)]> threads)) →
              ∃ tr', exec (mkSystem p w clock threads) tr'
                       (mkSystem (pop_in_flight key (release key p1)) w1 (clock + d)
                          (<[tid := mkThread key action (Returned o1)]> threads)))
      as Hleave.
    { intros tr o1 p1 w1 Hex. eexists.
      eapply exec_thread_step;
        [eapply exec_thread_step; [exact Hex | done | reflexivity]
        | done | reflexivity]. }
    destruct (action w) as [w1 [result|e]] eqn:Hact; intros [= <- <- <-].
    + eapply Hleave.
      eapply exec_thread_step;
        [eapply exec_thread_step; [exact H4 | done | simpl; by rewrite Hact]
        | done | reflexivity].
    + eapply Hleave.
      eapply exec_thread_step; [exact H4 | done |]. simpl. by rewrite Hact.
Qed.

End SoloFacts.
